(** * contracts/genXML.py: the contract bundler

    The script reads a fixed list of Solidity sources from the working
    directory, wraps each one in a small XML envelope and writes the
    concatenation to [contracts.xml].

    The script is embedded as a program in a state-and-exception monad over
    a model of the file system.  Files hold text (what a text-mode [read()]
    returns and what a text-mode [write()] stores, under the platform's
    default encoding and POSIX line endings); a file whose bytes do not
    decode has no text.  Python exceptions are never caught by the script,
    so a raised exception ends the run; the effects performed before it
    stay.

    The file system holds regular files only, each with the permissions
    this process has on it.  Directories and other kinds of file, errors
    of the device, and a [write()] that fails once the output is open are
    outside the model; the properties below speak of runs within it. *)

From Stdlib Require Import Ascii.
From stdpp Require Import gmap strings list pretty.

Local Open Scope Z_scope.

(** ** Python values used by the script *)

(** The escaped characters of the script's string literals: newline, tab
    and double quote. *)
Definition nl : string := String "010"%char EmptyString.
Definition tab : string := String "009"%char EmptyString.
Definition dq : string := String "034"%char EmptyString.

(** [str(index)] for a Python [int], as used by the f-string [{index}]. *)
Definition str (index : Z) : string := pretty index.

(** Concatenation of a list of strings, left to right. *)
Definition flatten (l : list string) : string := foldr String.app EmptyString l.

(** ** [os.path.join] (posixpath) for two components *)

Definition startswith_sep (b : string) : bool :=
  match b with
  | String c _ => bool_decide (c = "/"%char)
  | EmptyString => false
  end.

Fixpoint endswith_sep (a : string) : bool :=
  match a with
  | EmptyString => false
  | String c EmptyString => bool_decide (c = "/"%char)
  | String _ rest => endswith_sep rest
  end.

Definition is_empty (a : string) : bool :=
  match a with EmptyString => true | String _ _ => false end.

Definition os_path_join (a b : string) : string :=
  if startswith_sep b then b
  else if is_empty a || endswith_sep a then a +:+ b
  else a +:+ "/" +:+ b.

(** ** Exceptions and outcomes *)

(** The exceptions the built-in [open], [read] and [write] raise here.
    [BadFileDescriptor] stands for an operation on a file object whose
    file is gone; the script never deletes a file, so it cannot occur in
    a run. *)
Inductive exn : Type :=
  | FileNotFoundError (path : string)
  | PermissionError (path : string)
  | UnicodeDecodeError
  | BadFileDescriptor.

Inductive outcome (A : Type) : Type :=
  | Ok (a : A)
  | Raise (e : exn).
Arguments Ok {A} a.
Arguments Raise {A} e.

Definition succeeded {A} (o : outcome A) : bool :=
  match o with Ok _ => true | Raise _ => false end.

(** ** The file system *)

(** A regular file: its permission bits for this process and its text;
    [text = None] when the bytes on disk do not decode. *)
Record file : Type := File {
  may_read : bool;
  may_write : bool;
  text : option string
}.

Definition set_text (f : file) (s : string) : file :=
  {| may_read := may_read f; may_write := may_write f; text := Some s |}.

Section Bundler.

(** File identities (inodes) and the resolution of a path, as written in
    the program, to the file it names.  Two spellings of one file
    ([./x] and [x], a hard link) resolve to the same identity.  The
    resolution does not change during a run. *)
Context {ino : Type} `{Countable ino}.
Variable resolve : string → ino.

(** What the run asked of the operating system, oldest first. *)
Inductive event : Type :=
  | EvOpenR (path : string)
  | EvRead (i : ino)
  | EvOpenW (path : string)
  | EvWrite (i : ino) (data : string).

(** The world of a run: the files, whether the process may create a file
    in the working directory, the permissions a file it creates gets (mode
    0666 less the umask), and the requests made so far. *)
Record world : Type := World {
  files : gmap ino file;
  may_create : bool;
  new_may_read : bool;
  new_may_write : bool;
  trace : list event
}.

Definition log (ev : event) (w : world) : world :=
  {| files := files w; may_create := may_create w;
     new_may_read := new_may_read w; new_may_write := new_may_write w;
     trace := trace w ++ [ev] |}.

Definition store (i : ino) (f : file) (w : world) : world :=
  {| files := <[i := f]> (files w); may_create := may_create w;
     new_may_read := new_may_read w; new_may_write := new_may_write w;
     trace := trace w |}.

(** ** The monad: state of the world, and an exception ends the computation *)

Definition io (A : Type) : Type := world → outcome A * world.

Definition ret {A} (a : A) : io A := λ w, (Ok a, w).

Definition bind {A B} (k : A → io B) (m : io A) : io B :=
  λ w, match m w with
       | (Ok a, w') => k a w'
       | (Raise e, w') => (Raise e, w')
       end.

#[global] Instance io_ret : MRet io := @ret.
#[global] Instance io_bind : MBind io := @bind.

(** ** File operations *)

(** [open(path, 'r')] *)
Definition open_r (path : string) : io ino :=
  λ w, let w := log (EvOpenR path) w in
       match files w !! resolve path with
       | None => (Raise (FileNotFoundError path), w)
       | Some f =>
           if may_read f then (Ok (resolve path), w)
           else (Raise (PermissionError path), w)
       end.

(** [file.read()]: the whole text of the file. *)
Definition read (fd : ino) : io string :=
  λ w, let w := log (EvRead fd) w in
       match files w !! fd with
       | None => (Raise BadFileDescriptor, w)
       | Some f =>
           match text f with
           | Some s => (Ok s, w)
           | None => (Raise UnicodeDecodeError, w)
           end
       end.

(** [open(path, 'w')]: creates the file or truncates it. *)
Definition open_w (path : string) : io ino :=
  λ w, let w := log (EvOpenW path) w in
       match files w !! resolve path with
       | None =>
           if may_create w
           then (Ok (resolve path),
                 store (resolve path)
                   {| may_read := new_may_read w; may_write := new_may_write w;
                      text := Some EmptyString |} w)
           else (Raise (PermissionError path), w)
       | Some f =>
           if may_write f
           then (Ok (resolve path), store (resolve path) (set_text f EmptyString) w)
           else (Raise (PermissionError path), w)
       end.

(** [file.write(data)]: the data goes after what the file holds since it
    was opened. *)
Definition write (fd : ino) (data : string) : io unit :=
  λ w, let w := log (EvWrite fd data) w in
       match files w !! fd with
       | None => (Raise BadFileDescriptor, w)
       | Some f =>
           (Ok tt, store fd (set_text f (default EmptyString (text f) +:+ data)) w)
       end.

(** ** The script *)

(** Lines 3-12. *)
Definition contracts : list string :=
  [ "Account.sol"; "Arbitration.sol"; "Escrow.sol"; "Offer.sol";
    "Rating.sol"; "Reputation.sol"; "Trade.sol"; "ContractRegistry.sol" ].

(** The string literals of lines 14 and 25. *)
Definition documents_open : string := "<documents>" +:+ nl.
Definition documents_close : string := "</documents>".

(** The four f-strings of the loop body, lines 20-23. *)
Definition document_open (index : Z) : string :=
  tab +:+ "<document index=" +:+ dq +:+ str index +:+ dq +:+ ">" +:+ nl.
Definition source_line (contract : string) : string :=
  tab +:+ tab +:+ "<source>" +:+ contract +:+ "</source>" +:+ nl.
Definition content_line (contract_content : string) : string :=
  tab +:+ tab +:+ "<document_content>" +:+ contract_content
      +:+ "</document_content>" +:+ nl.
Definition document_close : string := tab +:+ "</document>" +:+ nl.

(** One iteration of the loop, lines 17-23. *)
Definition loop_body (xml_content : string) (index : Z) (contract : string)
  : io string :=
  let file_path := os_path_join "." contract in
  file ← open_r file_path;
  contract_content ← read file;
  let xml_content := xml_content +:+ document_open index in
  let xml_content := xml_content +:+ source_line contract in
  let xml_content := xml_content +:+ content_line contract_content in
  let xml_content := xml_content +:+ document_close in
  ret xml_content.

(** [for index, contract in enumerate(contracts, start=index)], line 16. *)
Fixpoint for_enumerate (index : Z) (contracts : list string)
    (xml_content : string) : io string :=
  match contracts with
  | [] => ret xml_content
  | contract :: rest =>
      xml_content ← loop_body xml_content index contract;
      for_enumerate (index + 1) rest xml_content
  end.

(** Lines 14-25: the value of [xml_content] when the output is opened. *)
Definition assemble (contracts : list string) : io string :=
  let xml_content := documents_open in
  xml_content ← for_enumerate 1 contracts xml_content;
  let xml_content := xml_content +:+ documents_close in
  ret xml_content.

(** Lines 27-28. *)
Definition emit (xml_content : string) : io unit :=
  xml_file ← open_w "contracts.xml";
  write xml_file xml_content.

(** The script over a list of file names, and the script itself. *)
Definition genXML (contracts : list string) : io unit :=
  xml_content ← assemble contracts;
  emit xml_content.

Definition main : io unit := genXML contracts.

(** ** The bundle as the specification describes it

    A document record is the triple of index, source file name and file
    text; the output is the root element around the rendered records. *)

Record document : Type := Document {
  doc_index : Z;
  doc_source : string;
  doc_content : string
}.

Definition render (d : document) : string :=
  document_open (doc_index d) +:+ source_line (doc_source d)
    +:+ content_line (doc_content d) +:+ document_close.

Definition bundle (ds : list document) : string :=
  documents_open +:+ flatten (render <$> ds) +:+ documents_close.

(** What [open] followed by [read()] yields at a path, in a given world. *)
Definition peek (w : world) (path : string) : outcome string :=
  match files w !! resolve path with
  | None => Raise (FileNotFoundError path)
  | Some f =>
      if may_read f then
        match text f with
        | Some s => Ok s
        | None => Raise UnicodeDecodeError
        end
      else Raise (PermissionError path)
  end.

(** The records of a list of file names, numbered from [index], read
    through [rd]; the first file that cannot be read decides the error. *)
Fixpoint collect (rd : string → outcome string) (index : Z)
    (contracts : list string) : outcome (list document) :=
  match contracts with
  | [] => Ok []
  | contract :: rest =>
      match rd (os_path_join "." contract) with
      | Raise e => Raise e
      | Ok contract_content =>
          match collect rd (index + 1) rest with
          | Raise e => Raise e
          | Ok ds => Ok (Document index contract contract_content :: ds)
          end
      end
  end.

(** The requests one iteration, and the whole loop, make. *)
Definition read_events (w : world) (path : string) : list event :=
  match files w !! resolve path with
  | None => [EvOpenR path]
  | Some f =>
      if may_read f then [EvOpenR path; EvRead (resolve path)]
      else [EvOpenR path]
  end.

Fixpoint loop_events (w : world) (contracts : list string) : list event :=
  match contracts with
  | [] => []
  | contract :: rest =>
      read_events w (os_path_join "." contract)
        ++ (if succeeded (peek w (os_path_join "." contract))
            then loop_events w rest else [])
  end.

Definition extend (evs : list event) (w : world) : world :=
  {| files := files w; may_create := may_create w;
     new_may_read := new_may_read w; new_may_write := new_may_write w;
     trace := trace w ++ evs |}.

(** The output file: whether line 27 can open it, and what it holds. *)
Definition can_write_output (w : world) : bool :=
  match files w !! resolve "contracts.xml" with
  | None => may_create w
  | Some f => may_write f
  end.

Definition output_text (w : world) : option string :=
  files w !! resolve "contracts.xml" ≫= text.

(** The world after lines 27-28 succeed on [w]: the output holds the
    written string and nothing else, under its old permissions if it
    existed and under those of a new file otherwise. *)
Definition written (xml_content : string) (w : world) : world :=
  let out := resolve "contracts.xml" in
  {| files :=
       <[out := match files w !! out with
                | Some f => set_text f xml_content
                | None => {| may_read := new_may_read w;
                             may_write := new_may_write w;
                             text := Some xml_content |}
                end]> (files w);
     may_create := may_create w;
     new_may_read := new_may_read w; new_may_write := new_may_write w;
     trace := trace w ++ [EvOpenW "contracts.xml"; EvWrite out xml_content] |}.

(** The requests made between two worlds of one run. *)
Definition new_events (w w' : world) : list event :=
  drop (length (trace w)) (trace w').

(** No request to read comes after a request to write. *)
Definition is_read_event (ev : event) : bool :=
  match ev with EvOpenR _ | EvRead _ => true | EvOpenW _ | EvWrite _ _ => false end.

Fixpoint reads_before_writes (evs : list event) : bool :=
  match evs with
  | [] => true
  | ev :: rest =>
      if is_read_event ev then reads_before_writes rest
      else forallb (λ ev', negb (is_read_event ev')) rest
  end.

End Bundler.

(** ** Concrete file systems for the examples *)

(** Path resolution in a flat working directory: a leading [./] is
    dropped, so that [./x] and [x] name the same file. *)
Fixpoint posix_resolve (p : string) : string :=
  match p with
  | String "."%char (String "/"%char rest) => posix_resolve rest
  | _ => p
  end.

Definition regular (s : string) : file :=
  {| may_read := true; may_write := true; text := Some s |}.
Definition unreadable (s : string) : file :=
  {| may_read := false; may_write := true; text := Some s |}.
Definition undecodable : file :=
  {| may_read := true; may_write := true; text := None |}.

Definition disk (fs : list (string * file)) : world (ino := string) :=
  {| files := list_to_map fs; may_create := true;
     new_may_read := true; new_may_write := true; trace := [] |}.

(** The two-file scenario of the specification. *)
Definition disk_AB : world (ino := string) :=
  disk [("A.sol", regular "contract A {}"); ("B.sol", regular "contract B {}")].

Definition expected_AB : string :=
  "<documents>" +:+ nl
  +:+ tab +:+ "<document index=" +:+ dq +:+ "1" +:+ dq +:+ ">" +:+ nl
  +:+ tab +:+ tab +:+ "<source>A.sol</source>" +:+ nl
  +:+ tab +:+ tab +:+ "<document_content>contract A {}</document_content>" +:+ nl
  +:+ tab +:+ "</document>" +:+ nl
  +:+ tab +:+ "<document index=" +:+ dq +:+ "2" +:+ dq +:+ ">" +:+ nl
  +:+ tab +:+ tab +:+ "<source>B.sol</source>" +:+ nl
  +:+ tab +:+ tab +:+ "<document_content>contract B {}</document_content>" +:+ nl
  +:+ tab +:+ "</document>" +:+ nl
  +:+ "</documents>".

(** A source with the characters XML reserves, next to a stale output. *)
Definition disk_reserved : world (ino := string) :=
  disk [("A.sol", regular "if (a < b && c > d) {}");
        ("contracts.xml", regular "stale")].

(** One listed file cannot be read, or does not decode. *)
Definition disk_denied : world (ino := string) :=
  disk [("A.sol", regular "contract A {}"); ("B.sol", unreadable "contract B {}");
        ("contracts.xml", regular "stale")].
Definition disk_binary : world (ino := string) :=
  disk [("A.sol", undecodable); ("contracts.xml", regular "stale")].

(** The eight sources of the script, and the same with bystanders. *)
Definition eight (extra : list (string * file)) : world (ino := string) :=
  disk (((λ name, (name, regular ("// " +:+ name))) <$> contracts) ++ extra).

Definition disk_eight : world (ino := string) := eight [].
Definition disk_eight_more : world (ino := string) :=
  eight [("Unlisted.sol", regular "contract Unlisted {}");
         ("contracts.xml", regular "stale"); ("notes.txt", undecodable)].


(** Text that closes the document it sits in and opens another one, for
    the file name [contract] and the text [contract_content], numbered
    [index]: what follows it in the output closes the forged document. *)
Definition forged_tail (index : Z) (contract contract_content : string) : string :=
  "</document_content>" +:+ nl +:+ document_close
    +:+ document_open index +:+ source_line contract
    +:+ tab +:+ tab +:+ "<document_content>" +:+ contract_content.

(** [A.sol] alone, its text carrying a forged document for [B.sol]. *)
Definition disk_forged : world (ino := string) :=
  disk [("A.sol", regular ("contract A {}" +:+ forged_tail 2 "B.sol" "contract B {}"))].

(** [A.sol] alone and no output yet, under a umask that leaves the files
    the process creates read-only. *)
Definition disk_umask : world (ino := string) :=
  {| files := list_to_map [("A.sol", regular "contract A {}")];
     may_create := true; new_may_read := true; new_may_write := false;
     trace := [] |}.

(** ** The output format, spelled out

    The format of the output file as the specification gives it, written
    with its literal tags and independently of the script's f-strings. *)

(** The decimal numeral of a natural number, most significant digit
    first, without leading zeros. *)
Definition digit_char (d : N) : ascii := ascii_of_N (48 + d).

Fixpoint numeral_go (fuel : nat) (n : N) (acc : string) : string :=
  match fuel with
  | O => acc
  | S fuel =>
      let acc := String (digit_char (n mod 10)%N) acc in
      if (n / 10 =? 0)%N then acc else numeral_go fuel (n / 10)%N acc
  end.

Definition numeral (n : N) : string :=
  numeral_go (S (N.to_nat (N.log2 n))) n EmptyString.

(** One document element, numbered [n], for a file name and a file text. *)
Definition spec_document (n : N) (filename file_text : string) : string :=
  tab +:+ "<document index=" +:+ dq +:+ numeral n +:+ dq +:+ ">" +:+ nl
  +:+ tab +:+ tab +:+ "<source>" +:+ filename +:+ "</source>" +:+ nl
  +:+ tab +:+ tab +:+ "<document_content>" +:+ file_text
  +:+ "</document_content>" +:+ nl
  +:+ tab +:+ "</document>" +:+ nl.

(** The document elements of a list of (name, text) pairs, in list order,
    numbered consecutively from [n]. *)
Fixpoint spec_documents (n : N) (docs : list (string * string)) : string :=
  match docs with
  | [] => EmptyString
  | (filename, file_text) :: rest =>
      spec_document n filename file_text +:+ spec_documents (n + 1) rest
  end.

Definition spec_output (docs : list (string * string)) : string :=
  "<documents>" +:+ nl +:+ spec_documents 1 docs +:+ "</documents>".

(** Occurrences of a text inside a string, overlapping ones included. *)
Fixpoint starts_with (p s : string) : bool :=
  match p, s with
  | EmptyString, _ => true
  | String _ _, EmptyString => false
  | String a p', String b s' => Ascii.eqb a b && starts_with p' s'
  end.

Fixpoint count_sub (p s : string) : nat :=
  ((if starts_with p s then 1 else 0)
   + match s with
     | EmptyString => 0
     | String _ s' => count_sub p s'
     end)%nat.

(** The text by which a document element is recognised in the output. *)
Definition document_tag : string := "<document index=".

(** * Properties *)

Section Properties.

Context {ino : Type} `{Countable ino}.
Variable resolve : string → ino.

Implicit Types (w : world (ino := ino)) (cs : list string) (ds : list document).

(** ** Strings *)

Lemma string_app_cons x (a b : string) :
  String x a +:+ b = String x (a +:+ b).
Proof. reflexivity. Qed.

Lemma string_app_assoc (a b c : string) : (a +:+ b) +:+ c = a +:+ b +:+ c.
Proof.
  induction a as [|x a IH]; [done|].
  by rewrite !string_app_cons, IH.
Qed.

Lemma string_app_nil_r (a : string) : a +:+ EmptyString = a.
Proof.
  induction a as [|x a IH]; [done|].
  by rewrite string_app_cons, IH.
Qed.

Lemma flatten_app (l1 l2 : list string) :
  flatten (l1 ++ l2) = flatten l1 +:+ flatten l2.
Proof.
  induction l1 as [|s l1 IH]; simpl; [done|].
  by rewrite IH, string_app_assoc.
Qed.

(** ** Decimal numerals *)

Lemma digit_char_pretty (d : N) : (d < 10)%N → pretty_N_char d = digit_char d.
Proof.
  intros Hd.
  assert (∃ k : nat, (k < 10)%nat ∧ d = N.of_nat k) as (k & Hk & ->).
  { exists (N.to_nat d). lia. }
  do 10 (destruct k as [|k]; [reflexivity|]). lia.
Qed.

Lemma numeral_go_pretty fuel : ∀ (n : N) acc,
  (0 < n)%N → (n < 2 ^ N.of_nat fuel)%N →
  numeral_go fuel n acc = pretty_N_go n acc.
Proof.
  induction fuel as [|fuel IH]; intros n acc Hpos Hlt.
  - simpl in Hlt. lia.
  - cbn [numeral_go]. rewrite pretty_N_go_step by done.
    rewrite digit_char_pretty by (apply N.mod_lt; lia).
    destruct (N.eqb_spec (n / 10) 0) as [->|Hne].
    + by rewrite pretty_N_go_0.
    + apply IH; [by apply N.neq_0_lt_0|].
      apply N.Div0.div_lt_upper_bound.
      rewrite Nat2N.inj_succ, N.pow_succ_r' in Hlt. lia.
Qed.

(** The script's [str(index)] is the decimal numeral of the index. *)
Lemma str_numeral (n : N) : str (Z.of_N n) = numeral n.
Proof.
  destruct n as [|p]; [reflexivity|].
  unfold str, numeral. symmetry.
  change (pretty (Z.of_N (N.pos p))) with (pretty_N_go (N.pos p) EmptyString).
  apply numeral_go_pretty; [lia|].
  rewrite Nat2N.inj_succ, N2Nat.id.
  apply N.log2_spec. lia.
Qed.

(** ** Counting occurrences of the document tag *)

Lemma count_sub_nil (p : string) :
  p ≠ EmptyString → count_sub p EmptyString = 0%nat.
Proof. by destruct p. Qed.

(** A text without [<] holds no document tag, and none can start in it. *)
Lemma count_skip (u rest : string) :
  count_sub "<" u = 0%nat →
  count_sub document_tag (u +:+ rest) = count_sub document_tag rest.
Proof.
  induction u as [|x u IH]; [done|].
  rewrite string_app_cons. cbn [count_sub starts_with document_tag].
  destruct (Ascii.eqb "<" x); [done|].
  intros Hu. simpl in Hu. by rewrite IH.
Qed.

(** The tag has one [<], at its start: an occurrence cannot run from a
    text into a following [<]. *)
Lemma starts_with_before_lt (p u rest : string) :
  count_sub "<" p = 0%nat →
  starts_with p (u +:+ String "<" rest) = starts_with p u.
Proof.
  revert u. induction p as [|a p IH]; intros u Hp; [by destruct u|].
  cbn [count_sub starts_with] in Hp.
  destruct (Ascii.eqb "<" a) eqn:Ha; [done|]. simpl in Hp.
  destruct u as [|x u].
  - change (EmptyString +:+ String "<" rest) with (String "<"%char rest).
    cbn [starts_with]. by rewrite Ascii.eqb_sym, Ha.
  - rewrite string_app_cons. cbn [starts_with]. by rewrite IH.
Qed.

Lemma count_before_lt (t rest : string) :
  count_sub document_tag (t +:+ String "<" rest)
  = (count_sub document_tag t + count_sub document_tag (String "<" rest))%nat.
Proof.
  induction t as [|x t IH]; [done|].
  rewrite string_app_cons.
  change (count_sub document_tag (String x (t +:+ String "<" rest)))
    with ((if Ascii.eqb "<" x
              && starts_with "document index=" (t +:+ String "<" rest)
           then 1 else 0)
          + count_sub document_tag (t +:+ String "<" rest))%nat.
  change (count_sub document_tag (String x t))
    with ((if Ascii.eqb "<" x && starts_with "document index=" t
           then 1 else 0)
          + count_sub document_tag t)%nat.
  rewrite starts_with_before_lt by reflexivity.
  rewrite IH. lia.
Qed.

Lemma count_sub_lt_numeral_go fuel : ∀ (n : N) acc,
  count_sub "<" (numeral_go fuel n acc) = count_sub "<" acc.
Proof.
  induction fuel as [|fuel IH]; intros n acc; [done|].
  cbn [numeral_go].
  assert (count_sub "<" (String (digit_char (n mod 10)) acc) = count_sub "<" acc)
    as Hdigit.
  { assert (∃ k : nat, (k < 10)%nat ∧ (n mod 10)%N = N.of_nat k) as (k & Hk & ->).
    { exists (N.to_nat (n mod 10)).
      pose proof (N.mod_lt n 10 ltac:(lia)). lia. }
    do 10 (destruct k as [|k]; [reflexivity|]). lia. }
  destruct (n / 10 =? 0)%N; [done|]. by rewrite IH.
Qed.

Lemma count_sub_lt_numeral (n : N) : count_sub "<" (numeral n) = 0%nat.
Proof. unfold numeral. by rewrite count_sub_lt_numeral_go. Qed.

(** The tags in one document element: its own, and those inside the file
    name and the file text. *)
Lemma count_spec_document (n : N) (filename file_text rest : string) :
  count_sub document_tag (spec_document n filename file_text +:+ rest)
  = S (count_sub document_tag filename + count_sub document_tag file_text
       + count_sub document_tag rest).
Proof.
  unfold spec_document. rewrite !string_app_assoc.
  transitivity (S (count_sub document_tag
    (numeral n +:+ dq +:+ ">" +:+ nl +:+ tab +:+ tab +:+ "<source>"
       +:+ filename +:+ "</source>" +:+ nl +:+ tab +:+ tab
       +:+ "<document_content>" +:+ file_text +:+ "</document_content>"
       +:+ nl +:+ tab +:+ "</document>" +:+ nl +:+ rest)));
    [reflexivity|].
  rewrite count_skip by apply count_sub_lt_numeral.
  transitivity (S (count_sub document_tag
    (filename +:+ String "<" ("/source>" +:+ nl +:+ tab +:+ tab
       +:+ "<document_content>" +:+ file_text +:+ "</document_content>"
       +:+ nl +:+ tab +:+ "</document>" +:+ nl +:+ rest))));
    [reflexivity|].
  rewrite count_before_lt.
  transitivity (S (count_sub document_tag filename + count_sub document_tag
    (file_text +:+ String "<" ("/document_content>"
       +:+ nl +:+ tab +:+ "</document>" +:+ nl +:+ rest))))%nat;
    [reflexivity|].
  rewrite count_before_lt.
  transitivity (S (count_sub document_tag filename
    + (count_sub document_tag file_text + count_sub document_tag rest)))%nat;
    [reflexivity|].
  lia.
Qed.

Lemma count_spec_documents (docs : list (string * string)) : ∀ (n : N) rest,
  count_sub document_tag (spec_documents n docs +:+ rest)
  = (length docs + sum_list (count_sub document_tag <$> docs.*1)
     + sum_list (count_sub document_tag <$> docs.*2)
     + count_sub document_tag rest)%nat.
Proof.
  induction docs as [|[filename file_text] docs IH]; intros n rest; [done|].
  cbn [spec_documents]. rewrite string_app_assoc, count_spec_document, IH.
  rewrite !fmap_cons. cbn [length sum_list_with fst snd]. unfold id. lia.
Qed.

Lemma count_spec_output (docs : list (string * string)) :
  count_sub document_tag (spec_output docs)
  = (length docs + sum_list (count_sub document_tag <$> docs.*1)
     + sum_list (count_sub document_tag <$> docs.*2))%nat.
Proof.
  unfold spec_output.
  transitivity (count_sub document_tag (spec_documents 1 docs +:+ "</documents>"));
    [reflexivity|].
  rewrite count_spec_documents.
  change (count_sub document_tag "</documents>") with 0%nat. lia.
Qed.

(** ** The monad *)

Lemma bind_run {A B} (m : io (ino := ino) A) (k : A → io B) w :
  (m ≫= k) w =
  match m w with
  | (Ok a, w') => k a w'
  | (Raise e, w') => (Raise e, w')
  end.
Proof. reflexivity. Qed.

(** ** Reading leaves the disk alone *)

Lemma peek_extend evs w path :
  peek resolve (extend evs w) path = peek resolve w path.
Proof. reflexivity. Qed.

Lemma loop_events_extend evs w cs :
  loop_events resolve (extend evs w) cs = loop_events resolve w cs.
Proof. induction cs as [|c cs IH]; simpl; [done | by rewrite IH]. Qed.

Lemma extend_extend evs1 evs2 w :
  extend evs2 (extend evs1 w) = extend (evs1 ++ evs2) w.
Proof. unfold extend; simpl. by rewrite (assoc_L (++)). Qed.

Lemma extend_nil w : extend [] w = w.
Proof. destruct w; unfold extend; simpl. by rewrite (right_id_L [] (++)). Qed.

(** One iteration: it appends the rendered record of the file, or raises
    what reading the file raises. *)
Lemma loop_body_run xml_content index contract w :
  loop_body resolve xml_content index contract w =
  (match peek resolve w (os_path_join "." contract) with
   | Ok t => Ok (xml_content +:+ render (Document index contract t))
   | Raise e => Raise e
   end,
   extend (read_events resolve w (os_path_join "." contract)) w).
Proof.
  unfold loop_body, peek, read_events.
  rewrite bind_run. unfold open_r, extend, log; simpl.
  destruct (files w !! resolve (os_path_join "." contract)) as [f|] eqn:Hf;
    [|done].
  destruct (may_read f) eqn:Hr; [|done].
  rewrite bind_run. unfold read, log; simpl. rewrite Hf.
  destruct (text f) as [t|]; simpl.
  - unfold mret, io_ret, ret, render; simpl.
    by rewrite !string_app_assoc, <-(assoc_L (++)).
  - by rewrite <-(assoc_L (++)).
Qed.

(** The loop: it appends the records of all files, in order, or raises
    what the first unreadable file raises. *)
Lemma for_enumerate_run cs : ∀ index xml_content w,
  for_enumerate resolve index cs xml_content w =
  (match collect (peek resolve w) index cs with
   | Ok ds => Ok (xml_content +:+ flatten (render <$> ds))
   | Raise e => Raise e
   end,
   extend (loop_events resolve w cs) w).
Proof.
  induction cs as [|c cs IH]; intros index xml_content w; simpl.
  - by rewrite string_app_nil_r, extend_nil.
  - rewrite bind_run, loop_body_run.
    destruct (peek resolve w (os_path_join "." c)) as [t|e] eqn:Hp; simpl.
    + rewrite IH. rewrite extend_extend, loop_events_extend.
      f_equal.
      assert (collect (peek resolve (extend (read_events resolve w (os_path_join "." c)) w))
                (index + 1) cs = collect (peek resolve w) (index + 1) cs) as -> by done.
      destruct (collect (peek resolve w) (index + 1) cs) as [ds|e]; [|done].
      simpl. by rewrite !string_app_assoc.
    + by rewrite (right_id_L [] (++)).
Qed.

Lemma assemble_run cs w :
  assemble resolve cs w =
  (match collect (peek resolve w) 1 cs with
   | Ok ds => Ok (bundle ds)
   | Raise e => Raise e
   end,
   extend (loop_events resolve w cs) w).
Proof.
  unfold assemble. rewrite bind_run, for_enumerate_run.
  destruct (collect (peek resolve w) 1 cs) as [ds|e]; [|done].
  unfold bundle. by rewrite string_app_assoc.
Qed.

(** ** Writing the output *)

Lemma emit_run xml_content w :
  emit resolve xml_content w =
  if can_write_output resolve w then (Ok tt, written resolve xml_content w)
  else (Raise (PermissionError "contracts.xml"),
        extend [EvOpenW "contracts.xml"] w).
Proof.
  unfold emit, can_write_output, written. rewrite bind_run.
  unfold open_w, write, log, store, extend; simpl.
  destruct (files w !! resolve "contracts.xml") as [f|] eqn:Hf.
  - destruct (may_write f); [|done]. simpl.
    rewrite lookup_insert_eq; simpl.
    by rewrite insert_insert_eq, <-(assoc_L (++)).
  - destruct (may_create w); [|done]. simpl.
    rewrite lookup_insert_eq; simpl.
    by rewrite insert_insert_eq, <-(assoc_L (++)).
Qed.

Lemma genXML_run cs w :
  genXML resolve cs w =
  match collect (peek resolve w) 1 cs with
  | Ok ds => emit resolve (bundle ds) (extend (loop_events resolve w cs) w)
  | Raise e => (Raise e, extend (loop_events resolve w cs) w)
  end.
Proof.
  unfold genXML. rewrite bind_run, assemble_run.
  by destruct (collect (peek resolve w) 1 cs).
Qed.

Lemma genXML_ok_inv cs w :
  fst (genXML resolve cs w) = Ok tt →
  ∃ ds, collect (peek resolve w) 1 cs = Ok ds
      ∧ can_write_output resolve w = true
      ∧ snd (genXML resolve cs w)
          = written resolve (bundle ds) (extend (loop_events resolve w cs) w).
Proof.
  rewrite genXML_run.
  destruct (collect (peek resolve w) 1 cs) as [ds|e]; [|done].
  rewrite emit_run.
  change (can_write_output resolve (extend (loop_events resolve w cs) w))
    with (can_write_output resolve w).
  destruct (can_write_output resolve w); [|done].
  intros _. by exists ds.
Qed.

Lemma output_text_written xml_content w :
  output_text resolve (written resolve xml_content w) = Some xml_content.
Proof.
  unfold output_text, written; simpl. rewrite lookup_insert_eq.
  by destruct (files w !! resolve "contracts.xml").
Qed.

Lemma files_written_other xml_content w i :
  i ≠ resolve "contracts.xml" →
  files (written resolve xml_content w) !! i = files w !! i.
Proof. intros Hi. unfold written; simpl. by rewrite lookup_insert_ne. Qed.

Lemma peek_written xml_content w path :
  resolve path ≠ resolve "contracts.xml" →
  peek resolve (written resolve xml_content w) path = peek resolve w path.
Proof.
  intros Hne. unfold peek. by rewrite files_written_other.
Qed.

Lemma can_write_written xml_content w :
  is_Some (files w !! resolve "contracts.xml") ∨ new_may_write w = true →
  can_write_output resolve w = true →
  can_write_output resolve (written resolve xml_content w) = true.
Proof.
  unfold can_write_output, written; simpl. rewrite lookup_insert_eq.
  destruct (files w !! resolve "contracts.xml") as [f|]; [done|].
  by intros [[f Hf]|Hnew].
Qed.

Lemma files_written_twice xml_content evs w :
  files (written resolve xml_content (extend evs (written resolve xml_content w)))
  = files (written resolve xml_content w).
Proof.
  unfold written, extend; simpl.
  rewrite lookup_insert_eq, insert_insert_eq.
  by destruct (files w !! resolve "contracts.xml").
Qed.

(** ** The records the loop collects *)

Lemma collect_inv (rd : string → outcome string) cs : ∀ index ds,
  collect rd index cs = Ok ds →
  length ds = length cs ∧
  ∀ k c, cs !! k = Some c →
    ∃ t, rd (os_path_join "." c) = Ok t
       ∧ ds !! k = Some (Document (index + Z.of_nat k) c t).
Proof.
  induction cs as [|c0 cs IH]; intros index ds Hc; simpl in Hc.
  - inversion Hc; subst. split; [done|]. intros k c Hk. by destruct k.
  - destruct (rd (os_path_join "." c0)) as [t0|e] eqn:Hrd; [|done].
    destruct (collect rd (index + 1) cs) as [ds'|e] eqn:Hrest; [|done].
    inversion Hc; subst ds; clear Hc.
    destruct (IH _ _ Hrest) as [Hlen Hnth].
    split; [simpl; by rewrite Hlen|].
    intros [|k] c Hk; simpl in Hk.
    + inversion Hk; subst c. exists t0. split; [done|].
      simpl. by rewrite Z.add_0_r.
    + destruct (Hnth k c Hk) as (t & Ht & Hd).
      exists t. split; [done|]. simpl. rewrite Hd.
      do 2 f_equal. lia.
Qed.

Lemma collect_total (rd : string → outcome string) cs : ∀ index,
  (∀ c, c ∈ cs → succeeded (rd (os_path_join "." c)) = true) →
  ∃ ds, collect rd index cs = Ok ds.
Proof.
  induction cs as [|c0 cs IH]; intros index Hall; simpl; [by eexists|].
  pose proof (Hall c0 ltac:(left)) as H0.
  destruct (rd (os_path_join "." c0)) as [t0|e]; [|done].
  destruct (IH (index + 1)) as [ds Hds].
  { intros c Hc. apply Hall. by right. }
  rewrite Hds. by eexists.
Qed.

Lemma collect_raises (rd : string → outcome string) cs : ∀ index c,
  c ∈ cs → succeeded (rd (os_path_join "." c)) = false →
  ∃ e, collect rd index cs = Raise e.
Proof.
  induction cs as [|c0 cs IH]; intros index c Hin Hc; [by inversion Hin|].
  simpl. destruct (rd (os_path_join "." c0)) as [t0|e] eqn:H0; [|by eexists].
  inversion Hin; subst; [by rewrite H0 in Hc|].
  destruct (IH (index + 1) c) as [e He]; [done..|].
  rewrite He. by eexists.
Qed.

Lemma collect_ext (rd1 rd2 : string → outcome string) cs : ∀ index,
  (∀ c, c ∈ cs → rd1 (os_path_join "." c) = rd2 (os_path_join "." c)) →
  collect rd1 index cs = collect rd2 index cs.
Proof.
  induction cs as [|c0 cs IH]; intros index Hagree; simpl; [done|].
  rewrite (Hagree c0) by left.
  rewrite (IH (index + 1)); [done|].
  intros c Hc. apply Hagree. by right.
Qed.

Lemma flatten_middle ds k d :
  ds !! k = Some d →
  flatten (render <$> ds) =
  flatten (render <$> take k ds) +:+ render d
    +:+ flatten (render <$> drop (S k) ds).
Proof.
  intros Hk. rewrite <-(take_drop_middle ds k d Hk) at 1.
  by rewrite fmap_app, flatten_app.
Qed.

(** ** The requests of a run *)

Lemma loop_events_reads w cs :
  forallb is_read_event (loop_events resolve w cs) = true.
Proof.
  induction cs as [|c cs IH]; simpl; [done|].
  rewrite forallb_app. apply andb_true_iff. split.
  - unfold read_events.
    destruct (files w !! resolve (os_path_join "." c)) as [f|]; [|done].
    by destruct (may_read f).
  - by destruct (succeeded (peek resolve w (os_path_join "." c))).
Qed.

Lemma new_events_extend evs w : new_events w (extend evs w) = evs.
Proof. unfold new_events, extend; simpl. by rewrite drop_app_length. Qed.

Lemma reads_then_writes (evs1 evs2 : list (event (ino := ino))) :
  forallb is_read_event evs1 = true →
  forallb (λ ev, negb (is_read_event ev)) evs2 = true →
  reads_before_writes (evs1 ++ evs2) = true.
Proof.
  intros H1 H2. induction evs1 as [|ev evs1 IH]; simpl in *.
  - destruct evs2 as [|ev evs2]; simpl in *; [done|].
    apply andb_true_iff in H2 as [Hev H2].
    by destruct (is_read_event ev).
  - apply andb_true_iff in H1 as [Hev H1]. rewrite Hev. by apply IH.
Qed.

(** X9: in every run, successful or not, all reading is over before the
    output is opened: no request to open or read a file follows a request
    to open or write the output. *)
Lemma genXML_reads_first cs w :
  reads_before_writes (new_events w (snd (genXML resolve cs w))) = true.
Proof.
  rewrite genXML_run.
  pose proof (loop_events_reads w cs) as Hreads.
  destruct (collect (peek resolve w) 1 cs) as [ds|e]; simpl.
  - rewrite emit_run.
    destruct (can_write_output resolve (extend (loop_events resolve w cs) w)); simpl.
    + unfold new_events, written; simpl.
      rewrite <-(assoc_L (++)), drop_app_length.
      by apply reads_then_writes.
    + rewrite extend_extend, new_events_extend.
      by apply reads_then_writes.
  - rewrite new_events_extend.
    rewrite <-(right_id_L [] (++) (loop_events resolve w cs)).
    by apply reads_then_writes.
Qed.

(** ** The document list *)

(** The script's four f-strings produce the document element of the
    specified format. *)
Lemma render_spec (n : N) (filename file_text : string) :
  render (Document (Z.of_N n) filename file_text)
  = spec_document n filename file_text.
Proof.
  unfold render, spec_document, document_open, source_line, content_line,
    document_close; simpl.
  by rewrite str_numeral, !string_app_assoc.
Qed.

Lemma collect_spec (rd : string → outcome string) cs : ∀ (n : N) ds,
  collect rd (Z.of_N n) cs = Ok ds →
  Forall2 (λ c t, rd (os_path_join "." c) = Ok t) cs (doc_content <$> ds)
  ∧ flatten (render <$> ds) = spec_documents n (zip cs (doc_content <$> ds)).
Proof.
  induction cs as [|c cs IH]; intros n ds Hds; simpl in Hds.
  - injection Hds as <-. by split; [constructor|].
  - destruct (rd (os_path_join "." c)) as [t|e] eqn:Hrd; [|done].
    replace (Z.of_N n + 1) with (Z.of_N (n + 1)) in Hds by lia.
    destruct (collect rd (Z.of_N (n + 1)) cs) as [ds'|e] eqn:Hrest; [|done].
    injection Hds as <-.
    destruct (IH _ _ Hrest) as [Hall Hflat].
    split; [by constructor|].
    rewrite !fmap_cons. cbn [flatten foldr zip zip_with spec_documents doc_content].
    by rewrite render_spec, <-Hflat.
Qed.

(** C1, as amended: when every listed file exists and can be read, the
    output is the root element around one document element per listed
    file, in list order, the element at position [k] (counted from 0)
    opening with the tag of index [k + 1] and carrying the [k]-th name
    and that file's text.  The number of document tags in the output is
    the number of listed files plus the number of such tags inside the
    listed names and the file texts, which are embedded as they are; it is
    exactly the number of listed files when no name or text holds one. *)
Theorem documents_emitted_in_order_and_counted cs w :
  Forall (λ c, succeeded (peek resolve w (os_path_join "." c)) = true) cs →
  ∃ texts,
    Forall2 (λ c t, peek resolve w (os_path_join "." c) = Ok t) cs texts
    ∧ fst (assemble resolve cs w) = Ok (spec_output (zip cs texts))
    ∧ count_sub document_tag (spec_output (zip cs texts))
      = (length cs + sum_list (count_sub document_tag <$> cs)
         + sum_list (count_sub document_tag <$> texts))%nat
    ∧ (Forall (λ s, count_sub document_tag s = 0%nat) (cs ++ texts) →
       count_sub document_tag (spec_output (zip cs texts)) = length cs).
Proof.
  intros Hall. rewrite assemble_run.
  destruct (collect_total (peek resolve w) cs 1) as [ds Hds].
  { by apply Forall_forall. }
  rewrite Hds.
  destruct (collect_spec (peek resolve w) cs 1%N ds Hds) as [Htexts Hflat].
  exists (doc_content <$> ds).
  pose proof (Forall2_length _ _ _ Htexts) as Hlen.
  assert (count_sub document_tag (spec_output (zip cs (doc_content <$> ds)))
          = (length cs + sum_list (count_sub document_tag <$> cs)
             + sum_list (count_sub document_tag <$> (doc_content <$> ds)))%nat)
    as Hcount.
  { rewrite count_spec_output.
    rewrite fst_zip, snd_zip, length_zip by lia. lia. }
  split; [done|]. split; [|split; [done|]].
  - unfold bundle, spec_output. by rewrite Hflat.
  - intros Hnone. rewrite Hcount.
    apply Forall_app in Hnone as [Hcs Hts].
    assert (∀ l : list string,
              Forall (λ s, count_sub document_tag s = 0%nat) l →
              sum_list (count_sub document_tag <$> l) = 0%nat) as Hzero.
    { induction 1 as [|s l Hs _ IHl]; csimpl; [done|].
      rewrite Hs. exact IHl. }
    rewrite (Hzero _ Hcs), (Hzero _ Hts). lia.
Qed.

(** The output string around the document at position [k]. *)
Lemma assemble_middle cs w out k c :
  fst (assemble resolve cs w) = Ok out →
  cs !! k = Some c →
  ∃ ds t,
    length ds = length cs ∧
    peek resolve w (os_path_join "." c) = Ok t ∧
    out = documents_open +:+ flatten (render <$> take k ds)
            +:+ render (Document (1 + Z.of_nat k) c t)
            +:+ flatten (render <$> drop (S k) ds) +:+ documents_close.
Proof.
  rewrite assemble_run. simpl.
  destruct (collect (peek resolve w) 1 cs) as [ds|e] eqn:Hds; [|done].
  intros [= <-] Hk.
  destruct (collect_inv _ _ _ _ Hds) as [Hlen Hnth].
  destruct (Hnth k c Hk) as (t & Ht & Hd).
  exists ds, t. split; [done|]. split; [done|].
  unfold bundle. by rewrite (flatten_middle ds k _ Hd), !string_app_assoc.
Qed.

(** C2: the text between the [document_content] tags of the document at
    position [k] is the text of the [k]-th file as read, character for
    character, whatever it holds (reserved characters included). *)
Theorem content_is_file_text_verbatim cs w out k c t :
  fst (assemble resolve cs w) = Ok out →
  cs !! k = Some c →
  peek resolve w (os_path_join "." c) = Ok t →
  ∃ ds,
    length ds = length cs ∧
    out = (documents_open +:+ flatten (render <$> take k ds)
             +:+ document_open (1 + Z.of_nat k) +:+ source_line c
             +:+ tab +:+ tab)
          +:+ "<document_content>" +:+ t +:+ "</document_content>"
          +:+ (nl +:+ document_close
                  +:+ flatten (render <$> drop (S k) ds) +:+ documents_close).
Proof.
  intros Hout Hk Ht.
  destruct (assemble_middle cs w out k c Hout Hk) as (ds & t' & Hlen & Ht' & ->).
  rewrite Ht in Ht'. injection Ht' as <-.
  exists ds. split; [done|].
  unfold render, content_line; simpl. by rewrite !string_app_assoc.
Qed.

(** C3: the text between the [source] tags of the document at position
    [k] is the [k]-th file name as listed, not the path that was opened. *)
Theorem source_is_listed_name cs w out k c :
  fst (assemble resolve cs w) = Ok out →
  cs !! k = Some c →
  ∃ ds t,
    length ds = length cs ∧
    out = (documents_open +:+ flatten (render <$> take k ds)
             +:+ document_open (1 + Z.of_nat k) +:+ tab +:+ tab)
          +:+ "<source>" +:+ c +:+ "</source>"
          +:+ (nl +:+ content_line t +:+ document_close
                  +:+ flatten (render <$> drop (S k) ds) +:+ documents_close).
Proof.
  intros Hout Hk.
  destruct (assemble_middle cs w out k c Hout Hk) as (ds & t & Hlen & Ht & ->).
  exists ds, t. split; [done|].
  unfold render, source_line; simpl. by rewrite !string_app_assoc.
Qed.

(** C4: with [A.sol] holding [contract A {}] and [B.sol] holding
    [contract B {}], the output string for the list [A.sol, B.sol] is
    the one the specification spells out. *)
Theorem scenario_two_files w :
  peek resolve w (os_path_join "." "A.sol") = Ok "contract A {}" →
  peek resolve w (os_path_join "." "B.sol") = Ok "contract B {}" →
  fst (assemble resolve ["A.sol"; "B.sol"] w) = Ok expected_AB.
Proof.
  intros HA HB. rewrite assemble_run. cbn [collect fst].
  rewrite HA, HB. reflexivity.
Qed.

(** C5, as amended: for the empty list the output string is the opening
    root tag, a newline, and the closing root tag. *)
Theorem scenario_empty_list w :
  fst (assemble resolve [] w) = Ok ("<documents>" +:+ nl +:+ "</documents>").
Proof. rewrite assemble_run. reflexivity. Qed.

(** ** Failures *)

(** C6: if a listed file is absent, the run ends with an exception, and
    it has neither created nor changed any file: no output is produced,
    and no request other than reads was made. *)
Theorem missing_file_aborts_without_output cs w c :
  c ∈ cs →
  files w !! resolve (os_path_join "." c) = None →
  ∃ e, fst (genXML resolve cs w) = Raise e
     ∧ files (snd (genXML resolve cs w)) = files w
     ∧ forallb is_read_event (new_events w (snd (genXML resolve cs w))) = true.
Proof.
  intros Hin Hnone. rewrite genXML_run.
  destruct (collect_raises (peek resolve w) cs 1 c Hin) as [e He].
  { unfold peek. by rewrite Hnone. }
  rewrite He. exists e. simpl.
  split; [done|]. split; [done|].
  rewrite new_events_extend. apply loop_events_reads.
Qed.

(** C7: if reading a listed file fails, for whichever reason, the run
    ends with an exception and the file at the output path is as it was
    before the run: the output was never opened, all requests of the
    run are reads. *)
Theorem failed_read_leaves_output_untouched cs w c e :
  c ∈ cs →
  peek resolve w (os_path_join "." c) = Raise e →
  succeeded (fst (genXML resolve cs w)) = false
  ∧ files (snd (genXML resolve cs w)) !! resolve "contracts.xml"
      = files w !! resolve "contracts.xml"
  ∧ forallb is_read_event (new_events w (snd (genXML resolve cs w))) = true.
Proof.
  intros Hin Hfail. rewrite genXML_run.
  destruct (collect_raises (peek resolve w) cs 1 c Hin) as [e' He'].
  { by rewrite Hfail. }
  rewrite He'. simpl.
  split; [done|]. split; [done|].
  rewrite new_events_extend. apply loop_events_reads.
Qed.

(** ** The write *)

(** C8: after a successful run the output file holds exactly the
    assembled string, whatever it held before, and every other file is
    as it was. *)
Theorem successful_run_replaces_output cs w :
  fst (genXML resolve cs w) = Ok tt →
  ∃ xml_content,
    fst (assemble resolve cs w) = Ok xml_content
    ∧ output_text resolve (snd (genXML resolve cs w)) = Some xml_content
    ∧ ∀ i, i ≠ resolve "contracts.xml" →
        files (snd (genXML resolve cs w)) !! i = files w !! i.
Proof.
  rewrite genXML_run, assemble_run.
  destruct (collect (peek resolve w) 1 cs) as [ds|e]; [|done].
  rewrite emit_run.
  destruct (can_write_output resolve (extend (loop_events resolve w cs) w));
    [|done].
  intros _. exists (bundle ds). cbn [fst snd].
  split; [done|]. split; [apply output_text_written|].
  intros i Hi. by rewrite files_written_other.
Qed.

(** ** Determinism *)

(** C9: two runs over the same list, in worlds where every listed file
    can be read and has the same text and where the output can be
    written, both succeed and leave the same text in the output file. *)
Theorem same_inputs_same_output cs w1 w2 :
  Forall (λ c, ∃ t, peek resolve w1 (os_path_join "." c) = Ok t
                  ∧ peek resolve w2 (os_path_join "." c) = Ok t) cs →
  can_write_output resolve w1 = true →
  can_write_output resolve w2 = true →
  fst (genXML resolve cs w1) = Ok tt
  ∧ fst (genXML resolve cs w2) = Ok tt
  ∧ ∃ xml_content,
      output_text resolve (snd (genXML resolve cs w1)) = Some xml_content
      ∧ output_text resolve (snd (genXML resolve cs w2)) = Some xml_content.
Proof.
  intros Hsame Hw1 Hw2. rewrite !genXML_run.
  assert (collect (peek resolve w1) 1 cs = collect (peek resolve w2) 1 cs) as Heq.
  { apply collect_ext. intros c Hc.
    destruct (proj1 (Forall_forall _ _) Hsame c Hc) as (t & -> & ->). done. }
  destruct (collect_total (peek resolve w1) cs 1) as [ds Hds].
  { intros c Hc.
    destruct (proj1 (Forall_forall _ _) Hsame c Hc) as (t & -> & _). done. }
  rewrite <-Heq, Hds, !emit_run.
  change (can_write_output resolve (extend (loop_events resolve w1 cs) w1))
    with (can_write_output resolve w1).
  change (can_write_output resolve (extend (loop_events resolve w2 cs) w2))
    with (can_write_output resolve w2).
  rewrite Hw1, Hw2. cbn [fst snd].
  split; [done|]. split; [done|].
  exists (bundle ds). by rewrite !output_text_written.
Qed.

(** X8: running the script again after a successful run succeeds and
    leaves every file as the first run left it, provided the output is
    not among the files it reads and the output either existed before the
    first run (truncation keeps its permissions) or is writable once the
    process has created it. *)
Lemma rerun_changes_nothing cs w :
  Forall (λ c, resolve (os_path_join "." c) ≠ resolve "contracts.xml") cs →
  is_Some (files w !! resolve "contracts.xml") ∨ new_may_write w = true →
  fst (genXML resolve cs w) = Ok tt →
  fst (genXML resolve cs (snd (genXML resolve cs w))) = Ok tt
  ∧ files (snd (genXML resolve cs (snd (genXML resolve cs w))))
    = files (snd (genXML resolve cs w)).
Proof.
  intros Hout Hmode Hok.
  destruct (genXML_ok_inv _ _ Hok) as (ds & Hds & Hcan & ->).
  set (w' := written resolve (bundle ds) (extend (loop_events resolve w cs) w)).
  assert (collect (peek resolve w') 1 cs = Ok ds) as Hds'.
  { rewrite <-Hds. apply collect_ext. intros c Hc.
    unfold w'. rewrite peek_written; [done|].
    by apply (proj1 (Forall_forall _ _) Hout). }
  rewrite genXML_run, Hds', emit_run.
  change (can_write_output resolve (extend (loop_events resolve w' cs) w'))
    with (can_write_output resolve w').
  assert (can_write_output resolve w' = true) as ->.
  { apply can_write_written; [exact Hmode | exact Hcan]. }
  cbn [fst snd]. split; [done|].
  unfold w'. apply files_written_twice.
Qed.

(** C10: the output of the script depends on the eight listed files
    only.  In two worlds where reading each listed file gives the same
    result, the assembled string (or the exception) is the same; when
    the output can be written in both, both runs end alike; and when both
    runs succeed, they leave the same text in the output file.  Nothing
    is assumed about any other file. *)
Theorem output_depends_on_listed_files_only w1 w2 :
  Forall (λ c, peek resolve w1 (os_path_join "." c)
             = peek resolve w2 (os_path_join "." c)) contracts →
  fst (assemble resolve contracts w1) = fst (assemble resolve contracts w2)
  ∧ (can_write_output resolve w1 = true →
     can_write_output resolve w2 = true →
     fst (main resolve w1) = fst (main resolve w2))
  ∧ (fst (main resolve w1) = Ok tt →
     fst (main resolve w2) = Ok tt →
     output_text resolve (snd (main resolve w1))
       = output_text resolve (snd (main resolve w2))).
Proof.
  intros Hagree.
  assert (collect (peek resolve w1) 1 contracts
          = collect (peek resolve w2) 1 contracts) as Heq.
  { apply collect_ext. by apply Forall_forall. }
  split; [|split].
  - rewrite !assemble_run. cbn [fst]. by rewrite Heq.
  - intros Hw1 Hw2. unfold main. rewrite !genXML_run, <-Heq.
    destruct (collect (peek resolve w1) 1 contracts) as [ds|e]; [|done].
    rewrite !emit_run.
    change (can_write_output resolve (extend (loop_events resolve w1 contracts) w1))
      with (can_write_output resolve w1).
    change (can_write_output resolve (extend (loop_events resolve w2 contracts) w2))
      with (can_write_output resolve w2).
    by rewrite Hw1, Hw2.
  - unfold main. intros Hok1 Hok2.
    destruct (genXML_ok_inv _ _ Hok1) as (ds1 & Hds1 & _ & ->).
    destruct (genXML_ok_inv _ _ Hok2) as (ds2 & Hds2 & _ & ->).
    rewrite !output_text_written. congruence.
Qed.

End Properties.

(** * The properties on concrete file systems *)

(** The script on the two-file scenario writes the expected file. *)
Example run_AB :
  output_text posix_resolve (snd (genXML posix_resolve ["A.sol"; "B.sol"] disk_AB))
  = Some expected_AB.
Proof. vm_compute. reflexivity. Qed.

(** A listed file that does not decode stops the run at its [read()]. *)
Example run_binary :
  fst (genXML posix_resolve ["A.sol"] disk_binary) = Raise UnicodeDecodeError
  ∧ output_text posix_resolve (snd (genXML posix_resolve ["A.sol"] disk_binary))
    = Some "stale".
Proof. split; vm_compute; reflexivity. Qed.

(** An absolute name is opened as it is, and still printed as listed. *)
Example join_absolute : os_path_join "." "/srv/Escrow.sol" = "/srv/Escrow.sol".
Proof. reflexivity. Qed.

Example join_relative : os_path_join "." "Escrow.sol" = "./Escrow.sol".
Proof. reflexivity. Qed.

(** The spelled-out format on the two-file scenario. *)
Example spec_output_AB :
  spec_output [("A.sol", "contract A {}"); ("B.sol", "contract B {}")]
  = expected_AB.
Proof. reflexivity. Qed.

Example numeral_examples :
  numeral 0 = "0" ∧ numeral 8 = "8" ∧ numeral 10 = "10" ∧ numeral 2048 = "2048".
Proof. by repeat split. Qed.

Lemma documents_emitted_in_order_and_counted_witness :
  Forall (λ c, succeeded (peek posix_resolve disk_AB (os_path_join "." c)) = true)
    ["A.sol"; "B.sol"]
  ∧ ∃ texts,
      Forall2 (λ c t, peek posix_resolve disk_AB (os_path_join "." c) = Ok t)
        ["A.sol"; "B.sol"] texts
      ∧ fst (assemble posix_resolve ["A.sol"; "B.sol"] disk_AB)
        = Ok (spec_output (zip ["A.sol"; "B.sol"] texts))
      ∧ count_sub document_tag (spec_output (zip ["A.sol"; "B.sol"] texts))
        = (length ["A.sol"; "B.sol"]
           + sum_list (count_sub document_tag <$> ["A.sol"; "B.sol"])
           + sum_list (count_sub document_tag <$> texts))%nat
      ∧ (Forall (λ s, count_sub document_tag s = 0%nat) (["A.sol"; "B.sol"] ++ texts) →
         count_sub document_tag (spec_output (zip ["A.sol"; "B.sol"] texts))
         = length ["A.sol"; "B.sol"]).
Proof.
  assert (Forall (λ c, succeeded (peek posix_resolve disk_AB (os_path_join "." c)) = true)
            ["A.sol"; "B.sol"]) as Hall.
  { repeat (apply Forall_cons_2; [vm_compute; reflexivity|]). apply Forall_nil_2. }
  split; [exact Hall|].
  exact (documents_emitted_in_order_and_counted posix_resolve
           ["A.sol"; "B.sol"] disk_AB Hall).
Defined.

(** C1, as stated, fails: a single readable file whose text carries a
    forged document gives an output with two document tags. *)
Lemma forged_text_adds_a_document_tag :
  Forall (λ c, succeeded (peek posix_resolve disk_forged (os_path_join "." c)) = true)
    ["A.sol"]
  ∧ fst (assemble posix_resolve ["A.sol"] disk_forged) = Ok expected_AB
  ∧ count_sub document_tag expected_AB = 2%nat
  ∧ count_sub document_tag expected_AB ≠ length ["A.sol"].
Proof.
  split; [|split; [|split]].
  - apply Forall_cons_2; [vm_compute; reflexivity|]. apply Forall_nil_2.
  - vm_compute. reflexivity.
  - vm_compute. reflexivity.
  - vm_compute. discriminate.
Qed.

Lemma content_is_file_text_verbatim_witness :
  ∃ ds,
    length ds = 1%nat ∧
    bundle [Document 1 "A.sol" "if (a < b && c > d) {}"] =
      (documents_open +:+ flatten (render <$> take 0 ds)
         +:+ document_open (1 + Z.of_nat 0) +:+ source_line "A.sol"
         +:+ tab +:+ tab)
      +:+ "<document_content>" +:+ "if (a < b && c > d) {}" +:+ "</document_content>"
      +:+ (nl +:+ document_close
              +:+ flatten (render <$> drop 1 ds) +:+ documents_close).
Proof.
  apply (content_is_file_text_verbatim posix_resolve ["A.sol"] disk_reserved
           (bundle [Document 1 "A.sol" "if (a < b && c > d) {}"]) 0 "A.sol"
           "if (a < b && c > d) {}").
  - vm_compute. reflexivity.
  - reflexivity.
  - vm_compute. reflexivity.
Defined.

Lemma source_is_listed_name_witness :
  ∃ ds t,
    length ds = 2%nat ∧
    expected_AB =
      (documents_open +:+ flatten (render <$> take 1 ds)
         +:+ document_open (1 + Z.of_nat 1) +:+ tab +:+ tab)
      +:+ "<source>" +:+ "B.sol" +:+ "</source>"
      +:+ (nl +:+ content_line t +:+ document_close
              +:+ flatten (render <$> drop 2 ds) +:+ documents_close).
Proof.
  apply (source_is_listed_name posix_resolve ["A.sol"; "B.sol"] disk_AB
           expected_AB 1 "B.sol").
  - vm_compute. reflexivity.
  - reflexivity.
Defined.

Lemma scenario_two_files_witness :
  fst (assemble posix_resolve ["A.sol"; "B.sol"] disk_AB) = Ok expected_AB.
Proof.
  apply (scenario_two_files posix_resolve disk_AB); vm_compute; reflexivity.
Defined.

(** C5, as stated, fails: the output for the empty list is not the two
    root tags back to back. *)
Lemma empty_list_output_is_not_bare_tags :
  fst (assemble posix_resolve [] (disk [])) ≠ Ok "<documents></documents>".
Proof. vm_compute. discriminate. Qed.

Lemma missing_file_aborts_without_output_witness :
  ∃ e, fst (genXML posix_resolve ["A.sol"; "C.sol"] disk_AB) = Raise e
     ∧ files (snd (genXML posix_resolve ["A.sol"; "C.sol"] disk_AB)) = files disk_AB
     ∧ forallb is_read_event
         (new_events disk_AB (snd (genXML posix_resolve ["A.sol"; "C.sol"] disk_AB)))
       = true.
Proof.
  apply (missing_file_aborts_without_output posix_resolve ["A.sol"; "C.sol"]
           disk_AB "C.sol").
  - right. left.
  - vm_compute. reflexivity.
Defined.

Lemma failed_read_leaves_output_untouched_witness :
  succeeded (fst (genXML posix_resolve ["A.sol"; "B.sol"] disk_denied)) = false
  ∧ files (snd (genXML posix_resolve ["A.sol"; "B.sol"] disk_denied))
      !! posix_resolve "contracts.xml"
    = files disk_denied !! posix_resolve "contracts.xml"
  ∧ forallb is_read_event
      (new_events disk_denied
         (snd (genXML posix_resolve ["A.sol"; "B.sol"] disk_denied)))
    = true.
Proof.
  apply (failed_read_leaves_output_untouched posix_resolve ["A.sol"; "B.sol"]
           disk_denied "B.sol" (PermissionError "./B.sol")).
  - right. left.
  - vm_compute. reflexivity.
Defined.

Lemma successful_run_replaces_output_witness :
  ∃ xml_content,
    fst (assemble posix_resolve ["A.sol"] disk_reserved) = Ok xml_content
    ∧ output_text posix_resolve (snd (genXML posix_resolve ["A.sol"] disk_reserved))
      = Some xml_content
    ∧ ∀ i, i ≠ posix_resolve "contracts.xml" →
        files (snd (genXML posix_resolve ["A.sol"] disk_reserved)) !! i
        = files disk_reserved !! i.
Proof.
  apply (successful_run_replaces_output posix_resolve ["A.sol"] disk_reserved).
  vm_compute. reflexivity.
Defined.

Lemma same_inputs_same_output_witness :
  fst (genXML posix_resolve contracts disk_eight) = Ok tt
  ∧ fst (genXML posix_resolve contracts disk_eight_more) = Ok tt
  ∧ ∃ xml_content,
      output_text posix_resolve (snd (genXML posix_resolve contracts disk_eight))
      = Some xml_content
      ∧ output_text posix_resolve
          (snd (genXML posix_resolve contracts disk_eight_more))
        = Some xml_content.
Proof.
  apply (same_inputs_same_output posix_resolve contracts disk_eight disk_eight_more).
  - repeat (apply Forall_cons_2;
            [eexists; split; vm_compute; reflexivity|]).
    apply Forall_nil_2.
  - vm_compute. reflexivity.
  - vm_compute. reflexivity.
Defined.

Lemma output_depends_on_listed_files_only_witness :
  fst (assemble posix_resolve contracts disk_eight)
  = fst (assemble posix_resolve contracts disk_eight_more)
  ∧ fst (main posix_resolve disk_eight) = fst (main posix_resolve disk_eight_more)
  ∧ output_text posix_resolve (snd (main posix_resolve disk_eight))
    = output_text posix_resolve (snd (main posix_resolve disk_eight_more)).
Proof.
  destruct (output_depends_on_listed_files_only posix_resolve
              disk_eight disk_eight_more) as (Hasm & Hres & Hout).
  - repeat (apply Forall_cons_2; [vm_compute; reflexivity|]). apply Forall_nil_2.
  - split; [exact Hasm|]. split.
    + apply Hres; vm_compute; reflexivity.
    + apply Hout; vm_compute; reflexivity.
Defined.

(** * Further properties of the script *)

Section Further.

Context {ino : Type} `{Countable ino}.
Variable resolve : string → ino.

Implicit Types (w : world (ino := ino)) (cs : list string) (ds : list document).

(** ** Strings *)



(** ** The loop *)

Lemma collect_app_raise (rd : string → outcome string) cs1 c cs2 e : ∀ index,
  Forall (λ c', succeeded (rd (os_path_join "." c')) = true) cs1 →
  rd (os_path_join "." c) = Raise e →
  collect rd index (cs1 ++ c :: cs2) = Raise e.
Proof.
  induction cs1 as [|c0 cs1 IH]; intros index Hall Hc; simpl.
  - by rewrite Hc.
  - inversion Hall as [|? ? H0 Hrest]; subst.
    destruct (rd (os_path_join "." c0)) as [t0|e0]; [|done].
    by rewrite (IH (index + 1) Hrest Hc).
Qed.

Lemma loop_events_app_raise w cs1 c cs2 e :
  Forall (λ c', succeeded (peek resolve w (os_path_join "." c')) = true) cs1 →
  peek resolve w (os_path_join "." c) = Raise e →
  loop_events resolve w (cs1 ++ c :: cs2) = loop_events resolve w (cs1 ++ [c]).
Proof.
  intros Hall Hc. induction cs1 as [|c0 cs1 IH]; simpl.
  - by rewrite Hc.
  - inversion Hall as [|? ? H0 Hrest]; subst.
    rewrite H0. by rewrite (IH Hrest).
Qed.

Lemma read_events_opens w path p :
  EvOpenR p ∈ read_events resolve w path → p = path.
Proof.
  unfold read_events.
  destruct (files w !! resolve path) as [f|]; [destruct (may_read f)|];
    intros Hin;
    repeat (apply elem_of_cons in Hin as [Hin|Hin]; [congruence|]);
    by apply elem_of_nil in Hin.
Qed.

Lemma loop_events_opens w cs p :
  EvOpenR p ∈ loop_events resolve w cs →
  ∃ c, c ∈ cs ∧ p = os_path_join "." c.
Proof.
  induction cs as [|c0 cs IH]; simpl; intros Hin.
  - by apply elem_of_nil in Hin.
  - apply elem_of_app in Hin as [Hin|Hin].
    + exists c0. split; [left|]. by apply (read_events_opens w).
    + destruct (succeeded (peek resolve w (os_path_join "." c0)));
        [|by apply elem_of_nil in Hin].
      destruct (IH Hin) as (c & Hc & ->). exists c. split; [by right|done].
Qed.

Lemma loop_events_all_read w cs : ∀ index ds,
  collect (peek resolve w) index cs = Ok ds →
  loop_events resolve w cs
  = flat_map (λ c, [EvOpenR (os_path_join "." c);
                    EvRead (resolve (os_path_join "." c))]) cs.
Proof.
  induction cs as [|c0 cs IH]; intros index ds Hds; simpl in *; [done|].
  unfold read_events.
  destruct (peek resolve w (os_path_join "." c0)) as [t0|e] eqn:Hp; [|done].
  destruct (collect (peek resolve w) (index + 1) cs) as [ds'|e] eqn:Hrest;
    [|done].
  unfold peek in Hp.
  destruct (files w !! resolve (os_path_join "." c0)) as [f|]; [|done].
  destruct (may_read f); [|done].
  simpl. by rewrite (IH _ _ Hrest).
Qed.

(** X1: the first listed file that cannot be read decides the run.  With
    every file before it readable, the run raises exactly what reading
    that file raises, ends in the same world whatever names follow it, and
    has opened no file listed after it. *)
Theorem first_unreadable_file_decides cs1 c cs2 w e :
  Forall (λ c', succeeded (peek resolve w (os_path_join "." c')) = true) cs1 →
  peek resolve w (os_path_join "." c) = Raise e →
  fst (genXML resolve (cs1 ++ c :: cs2) w) = Raise e
  ∧ snd (genXML resolve (cs1 ++ c :: cs2) w) = snd (genXML resolve (cs1 ++ [c]) w)
  ∧ ∀ p, EvOpenR p ∈ new_events w (snd (genXML resolve (cs1 ++ c :: cs2) w)) →
         ∃ c', c' ∈ cs1 ++ [c] ∧ p = os_path_join "." c'.
Proof.
  intros Hall Hc. rewrite !genXML_run.
  rewrite !(collect_app_raise (peek resolve w) cs1 c _ e 1 Hall Hc).
  rewrite (loop_events_app_raise w cs1 c cs2 e Hall Hc). cbn [fst snd].
  split; [done|]. split; [done|].
  intros p. rewrite new_events_extend. apply loop_events_opens.
Qed.


(** X3: no run, successful or not, creates, changes or removes a file
    other than the output, and none changes whether files may be created. *)
Theorem run_touches_only_output cs w i :
  i ≠ resolve "contracts.xml" →
  files (snd (genXML resolve cs w)) !! i = files w !! i
  ∧ may_create (snd (genXML resolve cs w)) = may_create w.
Proof.
  intros Hi. rewrite genXML_run.
  destruct (collect (peek resolve w) 1 cs) as [ds|e]; [|done].
  rewrite emit_run.
  destruct (can_write_output resolve (extend (loop_events resolve w cs) w));
    cbn [fst snd]; [|done].
  by rewrite files_written_other.
Qed.

(** X4: a successful run opens and reads each listed file once, in list
    order, then opens the output once and writes the whole assembled
    string in a single write; it makes no other request. *)
Theorem successful_run_requests cs w :
  fst (genXML resolve cs w) = Ok tt →
  ∃ xml_content,
    fst (assemble resolve cs w) = Ok xml_content
    ∧ new_events w (snd (genXML resolve cs w))
      = flat_map (λ c, [EvOpenR (os_path_join "." c);
                        EvRead (resolve (os_path_join "." c))]) cs
        ++ [EvOpenW "contracts.xml";
            EvWrite (resolve "contracts.xml") xml_content].
Proof.
  intros Hok.
  destruct (genXML_ok_inv resolve _ _ Hok) as (ds & Hds & _ & ->).
  exists (bundle ds). rewrite assemble_run, Hds. split; [done|].
  unfold new_events, written; simpl.
  rewrite <-(assoc_L (++)), drop_app_length.
  by rewrite (loop_events_all_read w cs 1 ds Hds).
Qed.

(** X5: the loop over a concatenated list is the loop over the first
    part followed by the loop over the second part, whose numbering goes
    on where the first part stopped. *)
Theorem for_enumerate_app cs1 cs2 : ∀ index xml_content w,
  for_enumerate resolve index (cs1 ++ cs2) xml_content w
  = (for_enumerate resolve index cs1 xml_content
       ≫= for_enumerate resolve (index + Z.of_nat (length cs1)) cs2) w.
Proof.
  induction cs1 as [|c cs1 IH]; intros index xml_content w.
  - simpl. rewrite bind_run. unfold mret, io_ret, ret.
    by rewrite Z.add_0_r.
  - cbn [app for_enumerate length]. rewrite !bind_run.
    destruct (loop_body resolve xml_content index c w) as [[xml'|e] w'];
      [|done].
    rewrite IH, bind_run.
    by replace (index + 1 + Z.of_nat (length cs1))
      with (index + Z.of_nat (S (length cs1))) by lia.
Qed.


(** X7: file text is embedded as it is, so it can forge documents.  A
    single file whose text goes on with [forged_tail 2 c2 t2] after [t1]
    gives the very output of the two files [c1], [c2] holding [t1] and
    [t2]: the output does not determine how many files were bundled. *)
Theorem unescaped_text_forges_a_document w w' c1 c2 t1 t2 :
  peek resolve w (os_path_join "." c1) = Ok t1 →
  peek resolve w (os_path_join "." c2) = Ok t2 →
  peek resolve w' (os_path_join "." c1) = Ok (t1 +:+ forged_tail 2 c2 t2) →
  fst (assemble resolve [c1] w') = fst (assemble resolve [c1; c2] w).
Proof.
  intros H1 H2 H1'. rewrite !assemble_run. cbn [collect fst].
  rewrite H1, H2, H1'. f_equal.
  unfold bundle, render, content_line, forged_tail.
  cbn [fmap list_fmap flatten foldr doc_index doc_source doc_content].
  change (1 + 1) with 2.
  by rewrite !string_app_assoc.
Qed.

End Further.

(** ** The further properties on concrete file systems *)

Lemma first_unreadable_file_decides_witness :
  fst (genXML posix_resolve (["A.sol"] ++ "C.sol" :: ["B.sol"]) disk_AB)
    = Raise (FileNotFoundError "./C.sol")
  ∧ snd (genXML posix_resolve (["A.sol"] ++ "C.sol" :: ["B.sol"]) disk_AB)
    = snd (genXML posix_resolve (["A.sol"] ++ ["C.sol"]) disk_AB)
  ∧ ∀ p, EvOpenR p ∈ new_events disk_AB
                 (snd (genXML posix_resolve (["A.sol"] ++ "C.sol" :: ["B.sol"]) disk_AB)) →
         ∃ c', c' ∈ ["A.sol"] ++ ["C.sol"] ∧ p = os_path_join "." c'.
Proof.
  apply (first_unreadable_file_decides posix_resolve ["A.sol"] "C.sol" ["B.sol"]
           disk_AB (FileNotFoundError "./C.sol")).
  - apply Forall_cons_2; [vm_compute; reflexivity|]. apply Forall_nil_2.
  - vm_compute. reflexivity.
Defined.


Lemma run_touches_only_output_witness :
  files (snd (genXML posix_resolve ["A.sol"] disk_reserved)) !! "A.sol"
    = files disk_reserved !! "A.sol"
  ∧ may_create (snd (genXML posix_resolve ["A.sol"] disk_reserved))
    = may_create disk_reserved.
Proof.
  apply (run_touches_only_output posix_resolve ["A.sol"] disk_reserved "A.sol").
  vm_compute. discriminate.
Defined.

Lemma successful_run_requests_witness :
  ∃ xml_content,
    fst (assemble posix_resolve ["A.sol"; "B.sol"] disk_AB) = Ok xml_content
    ∧ new_events disk_AB (snd (genXML posix_resolve ["A.sol"; "B.sol"] disk_AB))
      = flat_map (λ c, [EvOpenR (os_path_join "." c);
                        EvRead (posix_resolve (os_path_join "." c))])
          ["A.sol"; "B.sol"]
        ++ [EvOpenW "contracts.xml";
            EvWrite (posix_resolve "contracts.xml") xml_content].
Proof.
  apply (successful_run_requests posix_resolve ["A.sol"; "B.sol"] disk_AB).
  vm_compute. reflexivity.
Defined.


Lemma unescaped_text_forges_a_document_witness :
  fst (assemble posix_resolve ["A.sol"] disk_forged)
  = fst (assemble posix_resolve ["A.sol"; "B.sol"] disk_AB).
Proof.
  apply (unescaped_text_forges_a_document posix_resolve disk_AB disk_forged
           "A.sol" "B.sol" "contract A {}" "contract B {}");
    vm_compute; reflexivity.
Defined.

Lemma rerun_changes_nothing_witness :
  fst (genXML posix_resolve ["A.sol"]
         (snd (genXML posix_resolve ["A.sol"] disk_reserved))) = Ok tt
  ∧ files (snd (genXML posix_resolve ["A.sol"]
                  (snd (genXML posix_resolve ["A.sol"] disk_reserved))))
    = files (snd (genXML posix_resolve ["A.sol"] disk_reserved)).
Proof.
  apply (rerun_changes_nothing posix_resolve ["A.sol"] disk_reserved).
  - apply Forall_cons_2; [vm_compute; discriminate|]. apply Forall_nil_2.
  - left. vm_compute. eexists. reflexivity.
  - vm_compute. reflexivity.
Defined.

(** Without that proviso the second run can fail: under a umask that
    leaves new files read-only, the first run creates the output and the
    second is refused when it opens it. *)
Example rerun_refused_under_umask :
  fst (genXML posix_resolve ["A.sol"] disk_umask) = Ok tt
  ∧ succeeded (fst (genXML posix_resolve ["A.sol"]
                      (snd (genXML posix_resolve ["A.sol"] disk_umask)))) = false.
Proof. split; vm_compute; reflexivity. Qed.
